(** * asylo::StatusOr<T>: a value of type [T] or the [Status] explaining why
      there is none (asylo/util/statusor.h).

    The class keeps an untagged [union variant] next to a [bool has_value_]
    that says which union member is live.  The embedding keeps both, so that
    a read of the member that is not live is visible (it is undefined
    behaviour), and it keeps the objects in a store indexed by address,
    because the assignment operators compare [this] with [&other]. *)

From Stdlib Require Import ZArith.
From stdpp Require Import gmap strings.

Local Open Scope Z_scope.

(** ** Outcomes of a call *)

(** A call returns, or [LOG(FATAL)] ends the process with a diagnostic, or
    the call has undefined behaviour (a read of a union member that is not
    live, a reference to storage that holds no object). *)
Inductive outcome (A : Type) : Type :=
| Ret (a : A)
| Fatal (msg : string)
| Undefined.

Arguments Ret {A} a.
Arguments Fatal {A} msg.
Arguments Undefined {A}.

(** Calls thread the store of live objects. *)
Definition M (S A : Type) : Type := S -> outcome (A * S).

Definition ret {S A : Type} (a : A) : M S A := fun σ => Ret (a, σ).

Definition bind {S A B : Type} (m : M S A) (k : A -> M S B) : M S B :=
  fun σ =>
    match m σ with
    | Ret (a, σ') => k a σ'
    | Fatal msg => Fatal msg
    | Undefined => Undefined
    end.

Definition LOG_FATAL {S A : Type} (msg : string) : M S A := fun _ => Fatal msg.

Definition undefined {S A : Type} : M S A := fun _ => Undefined.

Declare Scope call_scope.
Delimit Scope call_scope with call.
Notation "x <- c1 ;; c2" := (bind c1 (fun x => c2))
  (at level 100, c1 at next level, right associativity) : call_scope.
Notation "c1 ;; c2" := (bind c1 (fun _ => c2))
  (at level 100, right associativity) : call_scope.
Local Open Scope call_scope.

(** ** The Status collaborator *)

(** Modelled from the spec: the [Status] class of asylo/util/status.h, which
    is not among the sources.  The spec gives it an error code, a textual
    message and a success predicate, a canonical success constant, and a
    constructor from a code and a message.  Codes are integers and the
    success code is 0. *)
Record Status : Type := mkStatus { error_code_ : Z; message_ : string }.

Definition Status_ok (s : Status) : bool := error_code_ s =? 0.

Definition OkStatus : Status := mkStatus 0 "".

(** Addresses of StatusOr objects. *)
Definition loc : Type := nat.

(** How a forwarding-reference parameter [U &&x] was bound by the caller:
    to a temporary, to a member of the object at an address through a const
    lvalue reference, or to that member through [std::move]. *)
Inductive arg (A : Type) : Type :=
| temporary (a : A)
| const_ref (l : loc)
| rvalue_ref (l : loc).

Arguments temporary {A} a.
Arguments const_ref {A} l.
Arguments rvalue_ref {A} l.

Section StatusOr.

(** The payload type, and the state a [T] or a [Status] object is left in
    once it has been moved from: valid but unspecified, so a parameter.
    Copy and move construction of [T] and of [Status] give the new object the
    value of the source. *)
Variable T : Type.
Variable T_moved_from : T -> T.
Variable Status_moved_from : Status -> Status.

(** The enumerators [error::GoogleError::UNKNOWN] and
    [error::StatusError::INVALID] of asylo/util/status_error_space.h, which
    is not among the sources: their numeric values are parameters. *)
Variable GoogleError_UNKNOWN : Z.
Variable StatusError_INVALID : Z.

(** [union variant]: at most one member is live. [no_member] is the union
    after [variant() {}] or after the destructor of its member was called. *)
Inductive variant : Type :=
| no_member
| status_ (s : Status)
| value_ (v : T).

Record StatusOr : Type := mkStatusOr { variant_ : variant; has_value_ : bool }.

Local Abbreviation store := (gmap loc StatusOr).
Local Abbreviation call := (M store).

(** *** Member accesses *)

(** [*this], for an address that holds an object. *)
Definition load (this : loc) : call StatusOr :=
  fun σ => match σ !! this with
           | Some o => Ret (o, σ)
           | None => Undefined
           end.

Definition set_variant_ (this : loc) (u : variant) : call unit :=
  o <- load this ;;
  fun σ => Ret (tt, <[this := mkStatusOr u (has_value_ o)]> σ).

(** [has_value_] and [has_value_ = b]. *)
Definition get_has_value_ (this : loc) : call bool :=
  o <- load this ;; ret (has_value_ o).

Definition set_has_value_ (this : loc) (b : bool) : call unit :=
  o <- load this ;;
  fun σ => Ret (tt, <[this := mkStatusOr (variant_ o) b]> σ).

(** [variant_.status_] and [variant_.value_], read. *)
Definition get_status_ (this : loc) : call Status :=
  o <- load this ;;
  match variant_ o with
  | status_ s => ret s
  | _ => undefined
  end.

Definition get_value_ (this : loc) : call T :=
  o <- load this ;;
  match variant_ o with
  | value_ v => ret v
  | _ => undefined
  end.

(** [std::move(variant_.status_)] and [std::move(variant_.value_)], consumed
    by a move constructor or a move assignment. *)
Definition move_status_ (this : loc) : call Status :=
  s <- get_status_ this ;;
  set_variant_ this (status_ (Status_moved_from s)) ;;
  ret s.

Definition move_value_ (this : loc) : call T :=
  v <- get_value_ this ;;
  set_variant_ this (value_ (T_moved_from v)) ;;
  ret v.

(** [variant_.value_.~T()] and [variant_.status_.~Status()]. *)
Definition destroy_value_ (this : loc) : call unit :=
  _ <- get_value_ this ;; set_variant_ this no_member.

Definition destroy_status_ (this : loc) : call unit :=
  _ <- get_status_ this ;; set_variant_ this no_member.

(** [new (&variant_) variant(x)]. *)
Definition placement_new (this : loc) (u : variant) : call unit :=
  set_variant_ this u.

(** [variant_.status_ = s] and [variant_.value_ = v] (the latter only
    through the reference [ValueOrDie() &] hands out). *)
Definition assign_status_ (this : loc) (s : Status) : call unit :=
  _ <- get_status_ this ;; set_variant_ this (status_ s).

Definition assign_value_ (this : loc) (v : T) : call unit :=
  _ <- get_value_ this ;; set_variant_ this (value_ v).

(** [std::forward<U>(x)] used to construct or assign a Status or a T. *)
Definition forward_status (x : arg Status) : call Status :=
  match x with
  | temporary s => ret s
  | const_ref l => get_status_ l
  | rvalue_ref l => move_status_ l
  end.

Definition forward_value (x : arg T) : call T :=
  match x with
  | temporary v => ret v
  | const_ref l => get_value_ l
  | rvalue_ref l => move_value_ l
  end.

(** Storage at [this] becomes an object, with the members as the
    constructor's initializer list leaves them. *)
Definition construct (this : loc) (o : StatusOr) : call unit :=
  fun σ => match σ !! this with
           | None => Ret (tt, <[this := o]> σ)
           | Some _ => Undefined
           end.

Definition release (this : loc) : call unit :=
  _ <- load this ;; fun σ => Ret (tt, delete this σ).

(** *** The class *)

(** [bool ok() const] *)
Definition ok (this : loc) : call bool := get_has_value_ this.

(** [Status status() const] *)
Definition status (this : loc) : call Status :=
  b <- ok this ;;
  if b then ret OkStatus else get_status_ this.

(** [template <class U> void AssignStatus(U &&status)] *)
Definition AssignStatus (this : loc) (status : arg Status) : call unit :=
  b <- ok this ;;
  (if b then
     destroy_value_ this ;;
     s <- forward_status status ;;
     placement_new this (status_ s)
   else
     s <- forward_status status ;;
     assign_status_ this s) ;;
  set_has_value_ this false.

(** [template <class U> void AssignValue(U &&value)] *)
Definition AssignValue (this : loc) (value : arg T) : call unit :=
  b <- ok this ;;
  (if b then destroy_value_ this else destroy_status_ this) ;;
  v <- forward_value value ;;
  placement_new this (value_ v) ;;
  set_has_value_ this true.

(** The status a moved-from object is set to. *)
Definition moved_status : Status :=
  mkStatus StatusError_INVALID "The object was moved".

(** [void Clear()] *)
Definition Clear (this : loc) : call unit :=
  AssignStatus this (temporary moved_status).

(** [explicit StatusOr()] *)
Definition unknown_status : Status :=
  mkStatus GoogleError_UNKNOWN "Unknown error".

Definition StatusOr_default (this : loc) : call unit :=
  construct this (mkStatusOr (status_ unknown_status) false).

(** [StatusOr(const Status &status)] *)
Definition StatusOr_from_status (this : loc) (status : Status) : call unit :=
  construct this (mkStatusOr (status_ status) false) ;;
  if Status_ok status
  then LOG_FATAL "Cannot instantiate StatusOr with Status::OkStatus()"
  else ret tt.

(** [StatusOr(const T &value)] and [StatusOr(T &&value)]: the value of the
    caller's [T] is copied, or moved, into the union. *)
Definition StatusOr_from_value (this : loc) (value : T) : call unit :=
  construct this (mkStatusOr (value_ value) true).

Definition StatusOr_from_rvalue (this : loc) (value : T) : call unit :=
  construct this (mkStatusOr (value_ value) true).

(** [StatusOr(const StatusOr &other)] *)
Definition StatusOr_copy (this other : loc) : call unit :=
  hv <- get_has_value_ other ;;
  construct this (mkStatusOr no_member hv) ;;
  b <- get_has_value_ this ;;
  if b then
    v <- get_value_ other ;; placement_new this (value_ v)
  else
    s <- get_status_ other ;; placement_new this (status_ s).

(** [StatusOr &operator=(const StatusOr &other)] *)
Definition copy_assign (this other : loc) : call unit :=
  if decide (this = other) then ret tt
  else
    b <- get_has_value_ other ;;
    if b then AssignValue this (const_ref other)
    else AssignStatus this (const_ref other).

(** [StatusOr(StatusOr &&other)] *)
Definition StatusOr_move (this other : loc) : call unit :=
  hv <- get_has_value_ other ;;
  construct this (mkStatusOr no_member hv) ;;
  b <- get_has_value_ this ;;
  (if b then
     v <- move_value_ other ;; placement_new this (value_ v)
   else
     s <- move_status_ other ;; placement_new this (status_ s)) ;;
  Clear other.

(** [StatusOr &operator=(StatusOr &&other)] *)
Definition move_assign (this other : loc) : call unit :=
  if decide (this = other) then ret tt
  else
    b <- get_has_value_ other ;;
    (if b then AssignValue this (rvalue_ref other)
     else AssignStatus this (rvalue_ref other)) ;;
    Clear other.

(** [~StatusOr()] *)
Definition StatusOr_destroy (this : loc) : call unit :=
  b <- get_has_value_ this ;;
  (if b then destroy_value_ this else destroy_status_ this) ;;
  release this.

Definition no_usable_value : string := "Object does not have a usable value".

(** [const T &ValueOrDie() const &]: the result is the referent. *)
Definition ValueOrDie_const (this : loc) : call T :=
  b <- ok this ;;
  (if negb b then LOG_FATAL no_usable_value else ret tt) ;;
  get_value_ this.

(** [T &ValueOrDie() &]: the result is the referent; [ValueOrDie_store] is an
    assignment through the reference, [x.ValueOrDie() = v]. *)
Definition ValueOrDie_mut (this : loc) : call T :=
  b <- ok this ;;
  (if negb b then LOG_FATAL no_usable_value else ret tt) ;;
  get_value_ this.

Definition ValueOrDie_store (this : loc) (v : T) : call unit :=
  _ <- ValueOrDie_mut this ;; assign_value_ this v.

(** [T ValueOrDie() &&] *)
Definition ValueOrDie_move (this : loc) : call T :=
  b <- ok this ;;
  (if negb b then LOG_FATAL no_usable_value else ret tt) ;;
  tmp <- move_value_ this ;;
  Clear this ;;
  ret tmp.

(** *** Programs over the public interface *)

Inductive op : Type :=
| op_default (this : loc)
| op_from_status (this : loc) (s : Status)
| op_from_value (this : loc) (v : T)
| op_from_rvalue (this : loc) (v : T)
| op_copy (this other : loc)
| op_move (this other : loc)
| op_copy_assign (this other : loc)
| op_move_assign (this other : loc)
| op_destroy (this : loc)
| op_ok (this : loc)
| op_status (this : loc)
| op_ValueOrDie_const (this : loc)
| op_ValueOrDie_mut (this : loc)
| op_ValueOrDie_store (this : loc) (v : T)
| op_ValueOrDie_move (this : loc).

Definition exec (c : op) : call unit :=
  match c with
  | op_default this => StatusOr_default this
  | op_from_status this s => StatusOr_from_status this s
  | op_from_value this v => StatusOr_from_value this v
  | op_from_rvalue this v => StatusOr_from_rvalue this v
  | op_copy this other => StatusOr_copy this other
  | op_move this other => StatusOr_move this other
  | op_copy_assign this other => copy_assign this other
  | op_move_assign this other => move_assign this other
  | op_destroy this => StatusOr_destroy this
  | op_ok this => _ <- ok this ;; ret tt
  | op_status this => _ <- status this ;; ret tt
  | op_ValueOrDie_const this => _ <- ValueOrDie_const this ;; ret tt
  | op_ValueOrDie_mut this => _ <- ValueOrDie_mut this ;; ret tt
  | op_ValueOrDie_store this v => ValueOrDie_store this v
  | op_ValueOrDie_move this => _ <- ValueOrDie_move this ;; ret tt
  end.

Fixpoint run (cs : list op) : call unit :=
  match cs with
  | [] => ret tt
  | c :: cs' => exec c ;; run cs'
  end.

(** The objects a call may modify: its [this], and the donor of a move. *)
Definition writes (c : op) : list loc :=
  match c with
  | op_move this other | op_move_assign this other => [this; other]
  | op_default this | op_from_status this _ | op_from_value this _
  | op_from_rvalue this _ | op_copy this _ | op_copy_assign this _
  | op_destroy this | op_ok this | op_status this
  | op_ValueOrDie_const this | op_ValueOrDie_mut this
  | op_ValueOrDie_store this _ | op_ValueOrDie_move this => [this]
  end.

(** *** Well-formed objects *)

(** [has_value_] names the live member of the union. *)
Definition consistent (o : StatusOr) : bool :=
  match variant_ o with
  | value_ _ => has_value_ o
  | status_ _ => negb (has_value_ o)
  | no_member => false
  end.

(** ... and a live Status is not OK. *)
Definition valid (o : StatusOr) : bool :=
  match variant_ o with
  | value_ _ => has_value_ o
  | status_ s => negb (has_value_ o) && negb (Status_ok s)
  | no_member => false
  end.

(** The object a move leaves behind in the donor. *)
Definition moved_from : StatusOr := mkStatusOr (status_ moved_status) false.

(** *** Frame and invariant *)

(** A call changes only the objects listed. *)
Definition modifies {A : Type} (L : list loc) (m : call A) : Prop :=
  forall σ a σ', m σ = Ret (a, σ') -> forall l, l ∉ L -> σ' !! l = σ !! l.

(** The objects a forwarded argument may modify: the referent of an rvalue
    reference. *)
Definition arg_writes {A : Type} (x : arg A) : list loc :=
  match x with
  | rvalue_ref l => [l]
  | _ => []
  end.

(** Every live object is valid. *)
Definition store_valid (σ : store) : Prop :=
  forall l o, σ !! l = Some o -> valid o = true.

(** The addresses a call is given are as C++ requires: a constructor is
    given storage that holds no object, every reference names an object. *)
Definition well_addressed (c : op) (σ : store) : Prop :=
  match c with
  | op_default this | op_from_status this _ | op_from_value this _
  | op_from_rvalue this _ => σ !! this = None
  | op_copy this other | op_move this other =>
      σ !! this = None /\ is_Some (σ !! other)
  | op_copy_assign this other | op_move_assign this other =>
      is_Some (σ !! this) /\ is_Some (σ !! other)
  | op_destroy this | op_ok this | op_status this
  | op_ValueOrDie_const this | op_ValueOrDie_mut this
  | op_ValueOrDie_store this _ | op_ValueOrDie_move this => is_Some (σ !! this)
  end.

(** A destination of a move assignment from [a]: another, live object. *)
Definition destination (σ : store) (a d : loc) : Prop :=
  d <> a /\ exists od, σ !! d = Some od /\ consistent od = true.

(** Every live object has the union member [has_value_] names. *)
Definition store_consistent (σ : store) : Prop :=
  forall l o, σ !! l = Some o -> consistent o = true.

(** The two places where a call ends in LOG(FATAL). *)
Definition fatal_site (c : op) (σ : store) (msg : string) : Prop :=
  match c with
  | op_from_status _ s =>
      Status_ok s = true /\
      msg = "Cannot instantiate StatusOr with Status::OkStatus()"
  | op_ValueOrDie_const this | op_ValueOrDie_mut this
  | op_ValueOrDie_store this _ | op_ValueOrDie_move this =>
      (exists o, σ !! this = Some o /\ has_value_ o = false) /\
      msg = no_usable_value
  | _ => False
  end.

(** The object a call brings to life, and the object whose life it ends. *)
Definition creates (c : op) : option loc :=
  match c with
  | op_default this | op_from_status this _ | op_from_value this _
  | op_from_rvalue this _ | op_copy this _ | op_move this _ => Some this
  | _ => None
  end.

Definition ends (c : op) : option loc :=
  match c with
  | op_destroy this => Some this
  | _ => None
  end.




(** A call that does not end in LOG(FATAL), whatever the store. *)
Definition never_fatal {A : Type} (m : call A) : Prop :=
  forall σ msg, m σ <> Fatal msg.

(** A call that neither brings an object to life nor ends the life of
    one. *)
Definition keeps_objects {A : Type} (m : call A) : Prop :=
  forall σ a σ', m σ = Ret (a, σ') ->
                 forall l, is_Some (σ' !! l) <-> is_Some (σ !! l).

(** ** Single calls on a known object *)

Ltac call_unfold :=
  unfold move_assign, copy_assign, StatusOr_move, StatusOr_copy,
    StatusOr_destroy, ValueOrDie_move, ValueOrDie_store, ValueOrDie_mut,
    ValueOrDie_const, StatusOr_from_rvalue, StatusOr_from_value,
    StatusOr_from_status, StatusOr_default, Clear, AssignValue, AssignStatus,
    status, ok, forward_value, forward_status, assign_value_, assign_status_,
    placement_new, destroy_status_, destroy_value_, move_value_, move_status_,
    get_value_, get_status_, set_has_value_, get_has_value_, set_variant_,
    release, construct, load, LOG_FATAL, undefined, bind, ret in *.

Ltac call_step :=
  match goal with
  | |- context [decide (?a = ?b)] => destruct (decide (a = b)); try congruence
  | H : ?m !! ?l = _ |- context [?m !! ?l] => rewrite H
  | |- context [<[?l := _]> _ !! ?l] => rewrite lookup_insert_eq
  | |- context [<[?l := _]> _ !! ?k] => rewrite lookup_insert_ne by congruence
  | |- context [delete ?l _ !! ?l] => rewrite lookup_delete_eq
  | |- context [delete ?l _ !! ?k] => rewrite lookup_delete_ne by congruence
  | _ => progress cbn [variant_ has_value_ negb fst snd]
  end.

Ltac call_run := call_unfold; repeat call_step.

Lemma consistent_cases (o : StatusOr) :
  consistent o = true ->
  (exists v, o = mkStatusOr (value_ v) true) \/
  (exists s, o = mkStatusOr (status_ s) false).
Proof.
  destruct o as [[|s|v] [|]]; cbn; try discriminate; eauto.
Qed.

Ltac store_eq :=
  apply map_eq; intros ?;
  repeat first [rewrite lookup_insert | rewrite lookup_delete];
  repeat case_decide; subst; first [reflexivity | congruence].

Ltac call_solve := call_run; try (do 2 f_equal; store_eq); try reflexivity.

Lemma ok_at (σ : store) (this : loc) (o : StatusOr) :
  σ !! this = Some o -> ok this σ = Ret (has_value_ o, σ).
Proof. intros H. call_solve. Qed.

Lemma status_at_value (σ : store) (this : loc) (o : StatusOr) :
  σ !! this = Some o -> has_value_ o = true ->
  status this σ = Ret (OkStatus, σ).
Proof. intros H Hv. call_run. rewrite Hv. reflexivity. Qed.

Lemma status_at_failure (σ : store) (this : loc) (s : Status) :
  σ !! this = Some (mkStatusOr (status_ s) false) ->
  status this σ = Ret (s, σ).
Proof. intros H. call_solve. Qed.

Lemma AssignStatus_temporary (σ : store) (this : loc) (o : StatusOr) (s : Status) :
  σ !! this = Some o -> consistent o = true ->
  AssignStatus this (temporary s) σ
  = Ret (tt, <[this := mkStatusOr (status_ s) false]> σ).
Proof.
  intros H C. destruct (consistent_cases o C) as [[v ->]|[r ->]]; call_solve.
Qed.

Lemma Clear_at (σ : store) (this : loc) (o : StatusOr) :
  σ !! this = Some o -> consistent o = true ->
  Clear this σ = Ret (tt, <[this := moved_from]> σ).
Proof. intros H C. unfold Clear. apply (AssignStatus_temporary σ this o); done. Qed.

Lemma StatusOr_copy_fresh (σ : store) (this other : loc) (a : StatusOr) :
  σ !! this = None ->
  σ !! other = Some a -> consistent a = true ->
  StatusOr_copy this other σ = Ret (tt, <[this := a]> σ).
Proof.
  intros Hb Ha Ca.
  assert (this <> other) by congruence.
  destruct (consistent_cases a Ca) as [[v ->]|[s ->]]; call_solve.
Qed.

Lemma copy_assign_distinct (σ : store) (this other : loc) (a b : StatusOr) :
  this <> other ->
  σ !! other = Some a -> consistent a = true ->
  σ !! this = Some b -> consistent b = true ->
  copy_assign this other σ = Ret (tt, <[this := a]> σ).
Proof.
  intros Hne Ha Ca Hb Cb.
  destruct (consistent_cases a Ca) as [[v ->]|[s ->]];
    destruct (consistent_cases b Cb) as [[w ->]|[r ->]];
    call_solve.
Qed.

Lemma StatusOr_move_fresh (σ : store) (this other : loc) (a : StatusOr) :
  σ !! this = None ->
  σ !! other = Some a -> consistent a = true ->
  StatusOr_move this other σ
  = Ret (tt, <[other := moved_from]> (<[this := a]> σ)).
Proof.
  intros Hb Ha Ca.
  assert (this <> other) by congruence.
  destruct (consistent_cases a Ca) as [[v ->]|[s ->]]; call_solve.
Qed.

Lemma move_assign_distinct (σ : store) (this other : loc) (a b : StatusOr) :
  this <> other ->
  σ !! other = Some a -> consistent a = true ->
  σ !! this = Some b -> consistent b = true ->
  move_assign this other σ = Ret (tt, <[other := moved_from]> (<[this := a]> σ)).
Proof.
  intros Hne Ha Ca Hb Cb.
  destruct (consistent_cases a Ca) as [[v ->]|[s ->]];
    destruct (consistent_cases b Cb) as [[w ->]|[r ->]];
    call_solve.
Qed.

Lemma ValueOrDie_move_value (σ : store) (this : loc) (v : T) :
  σ !! this = Some (mkStatusOr (value_ v) true) ->
  ValueOrDie_move this σ = Ret (v, <[this := moved_from]> σ).
Proof. intros H. call_solve. Qed.

Lemma ValueOrDie_failure (σ : store) (this : loc) (o : StatusOr) :
  σ !! this = Some o -> has_value_ o = false ->
  ValueOrDie_const this σ = Fatal no_usable_value /\
  ValueOrDie_mut this σ = Fatal no_usable_value /\
  ValueOrDie_move this σ = Fatal no_usable_value.
Proof. intros H Hv. call_run. rewrite Hv. cbn. done. Qed.

(** ** Frame: a call changes only the objects it is entitled to *)

Lemma modifies_ret {A : Type} (L : list loc) (a : A) : modifies L (ret a).
Proof. intros σ x σ' H l _. unfold ret in H. by simplify_eq. Qed.

Lemma modifies_bind {A B : Type} (L : list loc) (m : call A) (k : A -> call B) :
  modifies L m -> (forall a, modifies L (k a)) -> modifies L (bind m k).
Proof.
  intros Hm Hk σ b σ' H l Hl. unfold bind in H.
  destruct (m σ) as [[a σ1]| |] eqn:E; try discriminate.
  rewrite (Hk a σ1 b σ' H l Hl). exact (Hm σ a σ1 E l Hl).
Qed.

Lemma modifies_LOG_FATAL {A : Type} (L : list loc) (msg : string) :
  modifies L (@LOG_FATAL store A msg).
Proof. intros σ x σ' H. discriminate. Qed.

Lemma modifies_undefined {A : Type} (L : list loc) :
  modifies L (@undefined store A).
Proof. intros σ x σ' H. discriminate. Qed.

Lemma modifies_load (L : list loc) (this : loc) : modifies L (load this).
Proof.
  intros σ x σ' H l _. unfold load in H.
  destruct (σ !! this); by simplify_eq.
Qed.

Lemma modifies_insert (L : list loc) (this : loc) (o : StatusOr) :
  this ∈ L -> modifies L (fun σ => Ret (tt, <[this := o]> σ)).
Proof.
  intros Hin σ x σ' H l Hl. simplify_eq.
  apply lookup_insert_ne. intros ->. contradiction.
Qed.

Lemma modifies_delete (L : list loc) (this : loc) :
  this ∈ L -> modifies L (fun σ => Ret (tt, delete this σ)).
Proof.
  intros Hin σ x σ' H l Hl. simplify_eq.
  apply lookup_delete_ne. intros ->. contradiction.
Qed.

Lemma modifies_construct (L : list loc) (this : loc) (o : StatusOr) :
  this ∈ L -> modifies L (construct this o).
Proof.
  intros Hin σ x σ' H l Hl. unfold construct in H.
  destruct (σ !! this); simplify_eq.
  apply lookup_insert_ne. intros ->. contradiction.
Qed.


Ltac modifies_step :=
  match goal with
  | |- modifies _ (bind _ _) => apply modifies_bind; [| intros ?]
  | |- modifies _ (ret _) => apply modifies_ret
  | |- modifies _ (LOG_FATAL _) => apply modifies_LOG_FATAL
  | |- modifies _ undefined => apply modifies_undefined
  | |- modifies _ (load _) => apply modifies_load
  | |- modifies _ (construct _ _) => apply modifies_construct
  | |- modifies _ (fun σ => Ret (tt, <[_ := _]> σ)) => apply modifies_insert
  | |- modifies _ (fun σ => Ret (tt, delete _ σ)) => apply modifies_delete
  | |- modifies _ (if ?b then _ else _) => destruct b
  | |- modifies _ (match ?u with no_member => _ | _ => _ end) => destruct u
  | |- _ ∈ _ => set_solver
  end.

Ltac modifies_solve :=
  unfold move_assign, copy_assign, StatusOr_move, StatusOr_copy,
    StatusOr_destroy, ValueOrDie_move, ValueOrDie_store, ValueOrDie_mut,
    ValueOrDie_const, StatusOr_from_rvalue, StatusOr_from_value,
    StatusOr_from_status, StatusOr_default, Clear, AssignValue, AssignStatus,
    status, ok, forward_value, forward_status, assign_value_, assign_status_,
    placement_new, destroy_status_, destroy_value_, move_value_, move_status_,
    get_value_, get_status_, set_has_value_, get_has_value_, set_variant_,
    release;
  repeat modifies_step.

Lemma modifies_AssignStatus (this : loc) (x : arg Status) :
  modifies (this :: arg_writes x) (AssignStatus this x).
Proof. destruct x; modifies_solve. Qed.

Lemma modifies_AssignValue (this : loc) (x : arg T) :
  modifies (this :: arg_writes x) (AssignValue this x).
Proof. destruct x; modifies_solve. Qed.

Lemma modifies_exec (c : op) : modifies (writes c) (exec c).
Proof. destruct c; cbn [exec writes]; modifies_solve. Qed.

Lemma modifies_run (cs : list op) (L : list loc) :
  Forall (fun c => writes c ⊆ L) cs -> modifies L (run cs).
Proof.
  induction 1 as [|c cs Hc _ IH]; cbn [run].
  - apply modifies_ret.
  - apply modifies_bind; [| intros _; exact IH].
    intros σ a σ' H l Hl. apply (modifies_exec c σ a σ' H). set_solver.
Qed.

Lemma run_frame (cs : list op) (σ σ' : store) (l : loc) :
  Forall (fun c => l ∉ writes c) cs ->
  run cs σ = Ret (tt, σ') -> σ' !! l = σ !! l.
Proof.
  intros H. revert σ. induction H as [|c cs Hc _ IH]; intros σ Hrun.
  - cbn in Hrun. unfold ret in Hrun. by simplify_eq.
  - cbn [run] in Hrun. unfold bind in Hrun.
    destruct (exec c σ) as [[[] σ1]| |] eqn:E; try discriminate.
    rewrite (IH σ1 Hrun). exact (modifies_exec c σ tt σ1 E l Hc).
Qed.

(** ** Invariant: the live Status of a reachable object is not OK *)

Lemma valid_consistent (o : StatusOr) : valid o = true -> consistent o = true.
Proof.
  destruct o as [[|s|v] [|]]; cbn; try done.
Qed.

Lemma valid_failure (o : StatusOr) :
  valid o = true -> has_value_ o = false ->
  exists s, o = mkStatusOr (status_ s) false /\ Status_ok s = false.
Proof.
  destruct o as [[|s|v] [|]]; cbn; try done.
  intros H _. exists s. split; [done|]. by destruct (Status_ok s).
Qed.

Section Sentinels.

(** Neither enumerator is the success code. *)
Hypothesis UNKNOWN_not_OK : GoogleError_UNKNOWN <> 0.
Hypothesis INVALID_not_OK : StatusError_INVALID <> 0.

Lemma unknown_status_not_ok : Status_ok unknown_status = false.
Proof. unfold Status_ok, unknown_status; cbn. by apply Z.eqb_neq. Qed.

Lemma moved_status_not_ok : Status_ok moved_status = false.
Proof. unfold Status_ok, moved_status; cbn. by apply Z.eqb_neq. Qed.

Lemma exec_valid (c : op) (σ σ' : store) :
  store_valid σ -> exec c σ = Ret (tt, σ') -> store_valid σ'.
Proof.
  intros Hinv Hexec.
  destruct c; cbn [exec] in Hexec; call_unfold.
  all: repeat match type of Hexec with
       | context [decide (?a = ?b)] => destruct (decide (a = b)); subst
       | context [<[?l := _]> _ !! ?l] => rewrite lookup_insert_eq in Hexec
       | context [<[?l := _]> _ !! ?k] =>
           rewrite lookup_insert_ne in Hexec by congruence
       | context [?m !! ?l] =>
           is_var m;
           let E := fresh "E" in
           destruct (m !! l) as [[[|?|?] [|]]|] eqn:E;
           try (apply Hinv in E; discriminate E)
       | context [Status_ok ?s] =>
           let E := fresh "E" in destruct (Status_ok s) eqn:E
       | _ => progress cbn [variant_ has_value_ negb fst snd] in Hexec
       end.
  all: try discriminate Hexec.
  all: simplify_eq.
  all: intros l o; repeat first [rewrite lookup_insert | rewrite lookup_delete];
    repeat case_decide; intros Hl; simplify_eq; try (by eapply Hinv).
  all: cbn; rewrite ?moved_status_not_ok, ?unknown_status_not_ok; try done.
  all: by match goal with H : Status_ok _ = false |- _ => rewrite H end.
Qed.

End Sentinels.

Lemma run_valid (cs : list op) (σ σ' : store) :
  GoogleError_UNKNOWN <> 0 -> StatusError_INVALID <> 0 ->
  store_valid σ -> run cs σ = Ret (tt, σ') -> store_valid σ'.
Proof.
  intros HU HI. revert σ. induction cs as [|c cs IH]; intros σ Hinv Hrun.
  - cbn in Hrun. unfold ret in Hrun. by simplify_eq.
  - cbn [run] in Hrun. unfold bind in Hrun.
    destruct (exec c σ) as [[[] σ1]| |] eqn:E; try discriminate.
    apply (IH σ1); [| exact Hrun]. exact (exec_valid HU HI c σ σ1 Hinv E).
Qed.

(** Reachable objects have a live union member, the one [has_value_]
    names. *)
Lemma reachable_consistent (cs : list op) (σ : store) (l : loc) (o : StatusOr) :
  GoogleError_UNKNOWN <> 0 -> StatusError_INVALID <> 0 ->
  run cs ∅ = Ret (tt, σ) -> σ !! l = Some o -> consistent o = true.
Proof.
  intros HU HI Hrun Hl. apply valid_consistent.
  apply (run_valid cs ∅ σ HU HI) with (l := l); [| exact Hrun | exact Hl].
  intros k x Hk. rewrite lookup_empty in Hk. discriminate Hk.
Qed.

(** No call reads or destroys a union member that is not live. *)
Lemma exec_defined (c : op) (σ : store) :
  (forall l o, σ !! l = Some o -> consistent o = true) ->
  well_addressed c σ -> exec c σ <> Undefined.
Proof.
  intros Hinv Haddr.
  destruct c; cbn [exec well_addressed] in *;
    repeat match goal with
           | H : _ /\ _ |- _ => destruct H
           | H : is_Some _ |- _ => destruct H
           end;
    call_unfold.
  all: repeat match goal with
       | |- context [decide (?a = ?b)] => destruct (decide (a = b)); subst
       | H : ?m !! ?l = _ |- context [?m !! ?l] => rewrite H
       | |- context [<[?l := _]> _ !! ?l] => rewrite lookup_insert_eq
       | |- context [<[?l := _]> _ !! ?k] =>
           rewrite lookup_insert_ne by congruence
       | H : ?m !! ?l = Some ?o |- _ =>
           is_var o; pose proof (Hinv _ _ H);
           destruct o as [[|?|?] [|]]; try discriminate
       | |- context [Status_ok ?s] => destruct (Status_ok s)
       | _ => progress cbn [variant_ has_value_ negb fst snd]
       end.
  all: try discriminate; congruence.
Qed.

(** ** The properties of the class *)

(** C1. Move construction of [b] from [a], move assignment [b = move(a)]
    into a distinct [b], and [move(a).ValueOrDie()] leave [a] not ok with
    the status (StatusError::INVALID, "The object was moved"); [b] then holds
    the members [a] held, and the extracted value is the one [a] held.  The
    extraction returns exactly when [a] holds a value. *)
Theorem move_poisons_donor (σ : store) (a b : loc) (oa : StatusOr) :
  a <> b -> σ !! a = Some oa -> consistent oa = true ->
  (σ !! b = None ->
   exists σ',
     StatusOr_move b a σ = Ret (tt, σ') /\
     σ' !! b = Some oa /\
     ok a σ' = Ret (false, σ') /\ status a σ' = Ret (moved_status, σ')) /\
  (forall ob, σ !! b = Some ob -> consistent ob = true ->
   exists σ',
     move_assign b a σ = Ret (tt, σ') /\
     σ' !! b = Some oa /\
     ok a σ' = Ret (false, σ') /\ status a σ' = Ret (moved_status, σ')) /\
  (forall v, variant_ oa = value_ v ->
   exists σ',
     ValueOrDie_move a σ = Ret (v, σ') /\
     ok a σ' = Ret (false, σ') /\ status a σ' = Ret (moved_status, σ')) /\
  (forall s, variant_ oa = status_ s ->
   ValueOrDie_move a σ = Fatal no_usable_value).
Proof.
  intros Hne Ha Ca.
  assert (Hpoisoned : forall σ0 : store,
             ok a (<[a := moved_from]> σ0) = Ret (false, <[a := moved_from]> σ0) /\
             status a (<[a := moved_from]> σ0)
             = Ret (moved_status, <[a := moved_from]> σ0)).
  { intros σ0. split.
    - apply (ok_at _ a moved_from). apply lookup_insert_eq.
    - apply status_at_failure. apply lookup_insert_eq. }
  repeat split.
  - intros Hb. eexists. split; [by apply StatusOr_move_fresh|].
    split; [| apply Hpoisoned].
    rewrite lookup_insert_ne by done. apply lookup_insert_eq.
  - intros ob Hb Cb. eexists. split; [by eapply move_assign_distinct|].
    split; [| apply Hpoisoned].
    rewrite lookup_insert_ne by done. apply lookup_insert_eq.
  - intros v Hv. eexists. split; [| apply Hpoisoned].
    apply ValueOrDie_move_value.
    destruct oa as [u [|]]; cbn in Hv; subst u; [done|discriminate Ca].
  - intros s Hs. eapply ValueOrDie_failure; [exact Ha|].
    destruct oa as [u [|]]; cbn in Hs; subst u; [discriminate Ca|done].
Qed.

(** C2. A container constructed from a value [v], by copy or by move, is
    ok, reports the OK status, and every ValueOrDie overload returns [v]. *)
Theorem value_round_trip (σ : store) (this : loc) (v : T) :
  σ !! this = None ->
  let σ' := <[this := mkStatusOr (value_ v) true]> σ in
  StatusOr_from_value this v σ = Ret (tt, σ') /\
  StatusOr_from_rvalue this v σ = Ret (tt, σ') /\
  ok this σ' = Ret (true, σ') /\
  status this σ' = Ret (OkStatus, σ') /\ Status_ok OkStatus = true /\
  ValueOrDie_const this σ' = Ret (v, σ') /\
  ValueOrDie_mut this σ' = Ret (v, σ') /\
  ValueOrDie_move this σ' = Ret (v, <[this := moved_from]> σ').
Proof.
  intros Hfresh σ'.
  assert (Hthis : σ' !! this = Some (mkStatusOr (value_ v) true))
    by apply lookup_insert_eq.
  repeat split.
  - call_solve.
  - call_solve.
  - exact (ok_at σ' this _ Hthis).
  - by apply (status_at_value σ' this _ Hthis).
  - clearbody σ'. call_solve.
  - clearbody σ'. call_solve.
  - by apply ValueOrDie_move_value.
Qed.

(** C3. A container constructed from a status [s] that is not OK is not
    ok, and status() returns [s]: same error code, same message. *)
Theorem failure_round_trip (σ : store) (this : loc) (s : Status) :
  σ !! this = None -> Status_ok s = false ->
  let σ' := <[this := mkStatusOr (status_ s) false]> σ in
  StatusOr_from_status this s σ = Ret (tt, σ') /\
  ok this σ' = Ret (false, σ') /\
  exists s', status this σ' = Ret (s', σ') /\
             s' = s /\ error_code_ s' = error_code_ s /\
             message_ s' = message_ s.
Proof.
  intros Hfresh Hs σ'.
  assert (Hthis : σ' !! this = Some (mkStatusOr (status_ s) false))
    by apply lookup_insert_eq.
  repeat split.
  - call_run. rewrite Hs. reflexivity.
  - exact (ok_at σ' this _ Hthis).
  - exists s. split; [by apply status_at_failure | done].
Qed.

(** C4. On a container that is not ok each of the three ValueOrDie
    overloads ends in LOG(FATAL) with "Object does not have a usable value";
    on a container that is ok each of them returns the stored value. *)
Theorem value_access_contract (σ : store) (this : loc) (o : StatusOr) :
  σ !! this = Some o -> consistent o = true ->
  ok this σ = Ret (has_value_ o, σ) /\
  (has_value_ o = false ->
   ValueOrDie_const this σ = Fatal no_usable_value /\
   ValueOrDie_mut this σ = Fatal no_usable_value /\
   ValueOrDie_move this σ = Fatal no_usable_value) /\
  (has_value_ o = true ->
   exists v, variant_ o = value_ v /\
     ValueOrDie_const this σ = Ret (v, σ) /\
     ValueOrDie_mut this σ = Ret (v, σ) /\
     ValueOrDie_move this σ = Ret (v, <[this := moved_from]> σ)).
Proof.
  intros Hthis C. split; [by apply ok_at|]. split.
  - intros Hv. by apply (ValueOrDie_failure σ this o).
  - intros Hv. destruct (consistent_cases o C) as [[v ->]|[s ->]];
      [| discriminate Hv].
    exists v. split; [done|]. repeat split.
    + call_solve.
    + call_solve.
    + by apply ValueOrDie_move_value.
Qed.

(** C5. Construction from a status that is OK ends in LOG(FATAL);
    construction from a status that is not OK returns. *)
Theorem success_status_rejected (σ : store) (this : loc) (s : Status) :
  σ !! this = None ->
  (Status_ok s = true ->
   StatusOr_from_status this s σ
   = Fatal "Cannot instantiate StatusOr with Status::OkStatus()") /\
  (Status_ok s = false ->
   StatusOr_from_status this s σ
   = Ret (tt, <[this := mkStatusOr (status_ s) false]> σ)).
Proof.
  intros Hfresh. split; intros Hs; call_run; rewrite Hs; reflexivity.
Qed.

(** C6. In every store reached from the empty one by calls of the public
    interface that return, an object that is not ok has a live Status that
    is not OK, and status() returns it. *)
Theorem failure_status_never_ok (cs : list op) (σ : store) (l : loc) (o : StatusOr) :
  GoogleError_UNKNOWN <> 0 -> StatusError_INVALID <> 0 ->
  run cs ∅ = Ret (tt, σ) ->
  σ !! l = Some o -> has_value_ o = false ->
  exists s, variant_ o = status_ s /\ Status_ok s = false /\
            ok l σ = Ret (false, σ) /\ status l σ = Ret (s, σ).
Proof.
  intros HU HI Hrun Hl Hv.
  assert (Hvalid : store_valid σ).
  { apply (run_valid cs ∅ σ HU HI); [| exact Hrun].
    intros k x Hk. rewrite lookup_empty in Hk. discriminate Hk. }
  destruct (valid_failure o (Hvalid l o Hl) Hv) as (s & -> & Hs).
  exists s. repeat split; try done.
  - exact (ok_at σ l _ Hl).
  - by apply status_at_failure.
Qed.

(** C7. Copy construction and copy assignment from [a] into a distinct [b]
    give [b] the members of [a] and leave [a] as it was; whatever is then
    done to the copy (and to any object other than [a]) leaves [a] with its
    members: in particular moving the copy away, extracting its value, or
    assigning through ValueOrDie(). *)
Theorem copy_independent (σ : store) (a b : loc) (oa : StatusOr) :
  a <> b -> σ !! a = Some oa -> consistent oa = true ->
  let σ1 := <[b := oa]> σ in
  (σ !! b = None -> StatusOr_copy b a σ = Ret (tt, σ1)) /\
  (forall ob, σ !! b = Some ob -> consistent ob = true ->
              copy_assign b a σ = Ret (tt, σ1)) /\
  σ1 !! a = Some oa /\ σ1 !! b = Some oa /\
  (forall cs σ2, Forall (fun c => a ∉ writes c) cs ->
                 run cs σ1 = Ret (tt, σ2) -> σ2 !! a = Some oa) /\
  (forall c, σ1 !! c = None ->
     exists σ2, run [op_move c b] σ1 = Ret (tt, σ2) /\
                σ2 !! b = Some moved_from /\ σ2 !! a = Some oa) /\
  (forall v w, variant_ oa = value_ v ->
     exists σ2, run [op_ValueOrDie_store b w; op_ValueOrDie_move b] σ1
                = Ret (tt, σ2) /\
                σ2 !! b = Some moved_from /\ σ2 !! a = Some oa).
Proof.
  intros Hne Ha Ca σ1.
  assert (Ha1 : σ1 !! a = Some oa).
  { unfold σ1. by rewrite lookup_insert_ne. }
  assert (Hb1 : σ1 !! b = Some oa) by apply lookup_insert_eq.
  split; [intros Hb; by apply StatusOr_copy_fresh|].
  split; [intros ob Hb Cb; by eapply copy_assign_distinct|].
  split; [done|]. split; [done|]. split; [| split].
  - intros cs σ2 Hcs Hrun. rewrite <- Ha1. by eapply run_frame.
  - intros c Hc. clearbody σ1.
    assert (c <> a) by congruence. assert (c <> b) by congruence.
    eexists. split.
    + cbn [run exec]. unfold bind at 1.
      rewrite (StatusOr_move_fresh σ1 c b oa Hc Hb1 Ca). reflexivity.
    + split; [apply lookup_insert_eq|].
      by rewrite !lookup_insert_ne.
  - intros v w Hv. clearbody σ1.
    destruct oa as [u [|]]; cbn in Hv; subst u; [| discriminate Ca].
    eexists. split.
    + cbn [run exec]. call_run. reflexivity.
    + split; [apply lookup_insert_eq|].
      by rewrite !lookup_insert_ne.
Qed.

(** C8. Copy assignment and move assignment of an object to itself return
    at once and change nothing: the object keeps its members and is not
    set to the moved-from status. *)
Theorem self_assignment_no_op (σ : store) (this : loc) :
  copy_assign this this σ = Ret (tt, σ) /\
  move_assign this this σ = Ret (tt, σ).
Proof.
  unfold copy_assign, move_assign.
  destruct (decide (this = this)); [done | congruence].
Qed.

(** C9. A default-constructed container is not ok and its status is
    (GoogleError::UNKNOWN, "Unknown error"), which is not OK. *)
Theorem default_is_unknown_failure (σ : store) (this : loc) :
  GoogleError_UNKNOWN <> 0 ->
  σ !! this = None ->
  let σ' := <[this := mkStatusOr (status_ unknown_status) false]> σ in
  StatusOr_default this σ = Ret (tt, σ') /\
  ok this σ' = Ret (false, σ') /\
  status this σ' = Ret (unknown_status, σ') /\
  Status_ok unknown_status = false /\
  error_code_ unknown_status = GoogleError_UNKNOWN /\
  message_ unknown_status = "Unknown error".
Proof.
  intros HU Hfresh σ'.
  assert (Hthis : σ' !! this = Some (mkStatusOr (status_ unknown_status) false))
    by apply lookup_insert_eq.
  repeat split.
  - call_solve.
  - exact (ok_at σ' this _ Hthis).
  - by apply status_at_failure.
  - by apply unknown_status_not_ok.
Qed.


Lemma repeated_moves (a : loc) (ds : list loc) :
  forall (σ : store) (s : Status),
    σ !! a = Some (mkStatusOr (status_ s) false) ->
    Forall (destination σ a) ds ->
    exists σ' s',
      run (map (fun d => op_move_assign d a) ds) σ = Ret (tt, σ') /\
      σ' !! a = Some (mkStatusOr (status_ s') false) /\
      (ds <> [] -> s' = moved_status).
Proof.
  induction ds as [|d ds IH]; intros σ s Ha Hds.
  - exists σ, s. by repeat split.
  - apply Forall_cons in Hds as [(Hne & od & Hd & Cd) Hds].
    set (σ1 := <[a := moved_from]> (<[d := mkStatusOr (status_ s) false]> σ)).
    destruct (IH σ1 moved_status) as (σ' & s' & Hrun & Ha' & Hs').
    + apply lookup_insert_eq.
    + eapply Forall_impl; [exact Hds|].
      intros k (Hk & ok & Hlk & Ck). split; [done|].
      unfold σ1. rewrite lookup_insert_ne by done.
      destruct (decide (d = k)) as [->|Hdk].
      * rewrite lookup_insert_eq. by eexists.
      * rewrite lookup_insert_ne by done. by eexists.
    + exists σ', s'. split; [| split].
      * cbn [map run exec]. unfold bind at 1.
        rewrite (move_assign_distinct σ d a _ od Hne Ha eq_refl Hd Cd).
        exact Hrun.
      * exact Ha'.
      * intros _. destruct ds as [|d' ds']; [| by apply Hs'].
        cbn in Hrun. unfold ret in Hrun. simplify_eq.
        rewrite lookup_insert_eq in Ha'.
        unfold moved_from in Ha'. by simplify_eq.
Qed.

(** C10. A move construction or move assignment from a container [a] that
    is not ok, whatever its status, returns: the destination gets the
    status [a] held, and [a] is set to (StatusError::INVALID, "The object
    was moved"); after any non-empty series of moves from [a], [a] holds
    that status. *)
Theorem move_from_failure_poisons (σ : store) (a b : loc) (s : Status) :
  a <> b -> σ !! a = Some (mkStatusOr (status_ s) false) ->
  let σ' := <[a := moved_from]> (<[b := mkStatusOr (status_ s) false]> σ) in
  (σ !! b = None -> StatusOr_move b a σ = Ret (tt, σ')) /\
  (forall ob, σ !! b = Some ob -> consistent ob = true ->
              move_assign b a σ = Ret (tt, σ')) /\
  σ' !! b = Some (mkStatusOr (status_ s) false) /\
  status a σ' = Ret (moved_status, σ') /\
  (forall ds, ds <> [] -> Forall (destination σ a) ds ->
     exists σ2,
       run (map (fun d => op_move_assign d a) ds) σ = Ret (tt, σ2) /\
       ok a σ2 = Ret (false, σ2) /\ status a σ2 = Ret (moved_status, σ2)).
Proof.
  intros Hne Ha σ'.
  split; [intros Hb; by apply (StatusOr_move_fresh σ b a _ Hb Ha)|].
  split; [intros ob Hb Cb; by apply (move_assign_distinct σ b a _ ob)|].
  split; [unfold σ'; rewrite lookup_insert_ne by done; apply lookup_insert_eq|].
  split; [apply status_at_failure, lookup_insert_eq|].
  intros ds Hds Hall.
  destruct (repeated_moves a ds σ s Ha Hall) as (σ2 & s' & Hrun & Ha2 & Hs').
  rewrite (Hs' Hds) in Ha2.
  exists σ2. split; [exact Hrun|]. split.
  - exact (ok_at σ2 a _ Ha2).
  - by apply status_at_failure.
Qed.

(** ** Further properties of the class *)

Ltac exec_split Hexec on_lookup :=
  repeat match type of Hexec with
         | context [decide (?a = ?b)] => destruct (decide (a = b)); subst
         | context [<[?l := _]> _ !! ?l] => rewrite lookup_insert_eq in Hexec
         | context [<[?l := _]> _ !! ?k] =>
             rewrite lookup_insert_ne in Hexec by congruence
         | context [?m !! ?l] =>
             is_var m;
             let E := fresh "E" in
             destruct (m !! l) as [[[|?|?] [|]]|] eqn:E; on_lookup E
         | context [Status_ok ?s] =>
             let E := fresh "E" in destruct (Status_ok s) eqn:E
         | _ => progress cbn [variant_ has_value_ negb fst snd] in Hexec
         end.

Lemma exec_consistent (c : op) (σ σ' : store) :
  store_consistent σ -> exec c σ = Ret (tt, σ') -> store_consistent σ'.
Proof.
  intros Hinv Hexec.
  destruct c; cbn [exec] in Hexec; call_unfold.
  all: exec_split Hexec ltac:(fun E => try (apply Hinv in E; discriminate E)).
  all: try discriminate Hexec.
  all: simplify_eq.
  all: intros l o; repeat first [rewrite lookup_insert | rewrite lookup_delete];
    repeat case_decide; intros Hl; simplify_eq; try (by eapply Hinv).
  all: done.
Qed.

Lemma run_consistent (cs : list op) (σ σ' : store) :
  store_consistent σ -> run cs σ = Ret (tt, σ') -> store_consistent σ'.
Proof.
  revert σ. induction cs as [|c cs IH]; intros σ Hinv Hrun.
  - cbn in Hrun. unfold ret in Hrun. by simplify_eq.
  - cbn [run] in Hrun. unfold bind in Hrun.
    destruct (exec c σ) as [[[] σ1]| |] eqn:E; try discriminate.
    apply (IH σ1); [| exact Hrun]. exact (exec_consistent c σ σ1 Hinv E).
Qed.

Lemma empty_consistent : store_consistent ∅.
Proof. intros l o H. rewrite lookup_empty in H. discriminate H. Qed.

(** X1. In every store reached from the empty one by calls of the public
    interface that return, each object has exactly one live union member,
    and [has_value_] is true exactly when that member is the value. *)
Theorem union_discipline (cs : list op) (σ : store) (l : loc) (o : StatusOr) :
  run cs ∅ = Ret (tt, σ) -> σ !! l = Some o ->
  (exists v, o = mkStatusOr (value_ v) true) \/
  (exists s, o = mkStatusOr (status_ s) false).
Proof.
  intros Hrun Hl. apply consistent_cases.
  exact (run_consistent cs ∅ σ empty_consistent Hrun l o Hl).
Qed.

(** X2. From a store so reached, no call of the public interface that is
    given addresses as C++ requires reads, assigns or destroys a union
    member that is not live. *)
Theorem reachable_call_defined (cs : list op) (σ : store) (c : op) :
  run cs ∅ = Ret (tt, σ) -> well_addressed c σ -> exec c σ <> Undefined.
Proof.
  intros Hrun Haddr. apply exec_defined; [| exact Haddr].
  exact (run_consistent cs ∅ σ empty_consistent Hrun).
Qed.

Lemma never_fatal_ret {A : Type} (a : A) : never_fatal (ret a : call A).
Proof. intros σ msg. discriminate. Qed.

Lemma never_fatal_bind {A B : Type} (m : call A) (k : A -> call B) :
  never_fatal m -> (forall a, never_fatal (k a)) -> never_fatal (bind m k).
Proof.
  intros Hm Hk σ msg H. unfold bind in H.
  destruct (m σ) as [[a σ1]|msg'|] eqn:E; try discriminate.
  - exact (Hk a σ1 msg H).
  - exact (Hm σ msg' E).
Qed.

Lemma never_fatal_undefined {A : Type} : never_fatal (@undefined store A).
Proof. intros σ msg. discriminate. Qed.

Lemma never_fatal_load (this : loc) : never_fatal (load this).
Proof. intros σ msg. unfold load. destruct (σ !! this); discriminate. Qed.

Lemma never_fatal_construct (this : loc) (o : StatusOr) :
  never_fatal (construct this o).
Proof. intros σ msg. unfold construct. destruct (σ !! this); discriminate. Qed.

Lemma never_fatal_update (f : store -> store) :
  never_fatal (fun σ => Ret (tt, f σ)).
Proof. intros σ msg. discriminate. Qed.

Ltac never_fatal_step :=
  match goal with
  | |- never_fatal (bind _ _) => apply never_fatal_bind; [| intros ?]
  | |- never_fatal (ret _) => apply never_fatal_ret
  | |- never_fatal undefined => apply never_fatal_undefined
  | |- never_fatal (load _) => apply never_fatal_load
  | |- never_fatal (construct _ _) => apply never_fatal_construct
  | |- never_fatal (fun σ => Ret (tt, <[_ := _]> σ)) =>
      apply (never_fatal_update (fun σ => <[_ := _]> σ))
  | |- never_fatal (fun σ => Ret (tt, delete _ σ)) =>
      apply (never_fatal_update (fun σ => delete _ σ))
  | |- never_fatal (if ?b then _ else _) => destruct b
  | |- never_fatal (match ?u with no_member => _ | _ => _ end) => destruct u
  end.

Ltac never_fatal_solve :=
  unfold move_assign, copy_assign, StatusOr_move, StatusOr_copy,
    StatusOr_destroy, StatusOr_from_rvalue, StatusOr_from_value,
    StatusOr_default, Clear, AssignValue, AssignStatus,
    status, ok, forward_value, forward_status, assign_value_, assign_status_,
    placement_new, destroy_status_, destroy_value_, move_value_, move_status_,
    get_value_, get_status_, set_has_value_, get_has_value_, set_variant_,
    release;
  repeat never_fatal_step.

Lemma never_fatal_AssignStatus (this : loc) (x : arg Status) :
  never_fatal (AssignStatus this x).
Proof. destruct x; never_fatal_solve. Qed.

Lemma never_fatal_AssignValue (this : loc) (x : arg T) :
  never_fatal (AssignValue this x).
Proof. destruct x; never_fatal_solve. Qed.

Lemma ValueOrDie_fatal_site (m : call unit) (σ : store) (this : loc) (msg : string) :
  never_fatal m ->
  (b <- ok this ;;
   (if negb b then LOG_FATAL no_usable_value else ret tt) ;; m) σ = Fatal msg ->
  (exists o, σ !! this = Some o /\ has_value_ o = false) /\
  msg = no_usable_value.
Proof.
  intros Hm H. unfold ok, get_has_value_, load, bind, ret, LOG_FATAL in H.
  destruct (σ !! this) as [o|] eqn:E; [| discriminate H].
  destruct (has_value_ o) eqn:Hv; cbn in H.
  - exfalso. exact (Hm σ msg H).
  - simplify_eq. split; [by exists o | done].
Qed.

(** X3. A call ends in LOG(FATAL) only in the constructor from an OK status
    and in ValueOrDie on an object that is not ok, with the message of that
    place; copies, moves, assignments, the destructor, ok() and status()
    never do.  With addresses as C++ requires, those two places always do. *)
Theorem fatal_only_at_contract_violations (c : op) (σ : store) (msg : string) :
  (exec c σ = Fatal msg -> fatal_site c σ msg) /\
  (well_addressed c σ -> fatal_site c σ msg -> exec c σ = Fatal msg).
Proof.
  split.
  - intros Hexec.
    destruct c; cbn [exec fatal_site] in *;
      try (exfalso; refine ((_ : never_fatal _) σ msg Hexec);
           solve [never_fatal_solve]).
    + unfold StatusOr_from_status, construct, bind, ret, LOG_FATAL in Hexec.
      destruct (σ !! this); [discriminate Hexec|].
      destruct (Status_ok s); [by simplify_eq | discriminate Hexec].
    + apply (ValueOrDie_fatal_site (_ <- get_value_ this ;; ret tt)).
      * never_fatal_solve.
      * rewrite <- Hexec. unfold ValueOrDie_const, bind. 
        destruct (ok this σ) as [[[|] σ1]| |]; cbn; try reflexivity.
        all: destruct (get_value_ this σ1) as [[? σ2]| |]; reflexivity.
    + apply (ValueOrDie_fatal_site (_ <- get_value_ this ;; ret tt)).
      * never_fatal_solve.
      * rewrite <- Hexec. unfold ValueOrDie_mut, bind.
        destruct (ok this σ) as [[[|] σ1]| |]; cbn; try reflexivity.
        all: destruct (get_value_ this σ1) as [[? σ2]| |]; reflexivity.
    + apply (ValueOrDie_fatal_site (_ <- get_value_ this ;; assign_value_ this v)).
      * never_fatal_solve.
      * rewrite <- Hexec. unfold ValueOrDie_store, ValueOrDie_mut, bind.
        destruct (ok this σ) as [[[|] σ1]| |]; cbn; try reflexivity.
        all: destruct (get_value_ this σ1) as [[? σ2]| |]; reflexivity.
    + apply (ValueOrDie_fatal_site
               (tmp <- move_value_ this ;; Clear this ;; ret tt)).
      * never_fatal_solve.
      * rewrite <- Hexec. unfold ValueOrDie_move, bind.
        destruct (ok this σ) as [[[|] σ1]| |]; cbn; try reflexivity.
        all: destruct (move_value_ this σ1) as [[? σ2]| |]; try reflexivity.
        all: destruct (Clear this σ2) as [[[] σ3]| |]; reflexivity.
  - intros Haddr Hsite.
    destruct c; cbn [well_addressed fatal_site] in *; try contradiction.
    + destruct Hsite as [Hs ->]. cbn [exec]. call_run. by rewrite Hs.
    + destruct Hsite as [(o & Ho & Hv) ->]. cbn [exec]. call_run.
      by rewrite Hv.
    + destruct Hsite as [(o & Ho & Hv) ->]. cbn [exec]. call_run.
      by rewrite Hv.
    + destruct Hsite as [(o & Ho & Hv) ->]. cbn [exec]. call_run.
      by rewrite Hv.
    + destruct Hsite as [(o & Ho & Hv) ->]. cbn [exec]. call_run.
      by rewrite Hv.
Qed.

Lemma StatusOr_destroy_at (σ : store) (this : loc) (o : StatusOr) :
  σ !! this = Some o -> consistent o = true ->
  StatusOr_destroy this σ = Ret (tt, delete this σ).
Proof.
  intros Ho C. destruct (consistent_cases o C) as [[v ->]|[s ->]]; call_solve.
Qed.



(** X6. Moves compose as transfers.  Moving [a] into [b] and back gives [a]
    its members again and leaves [b] moved-from.  The exchange through a
    temporary (move-construct [t] from [a], move-assign [a] from [b],
    move-assign [b] from [t], destroy [t]) swaps the members of [a] and [b]
    and leaves nothing else changed: no object stays moved-from. *)
Theorem moves_compose (σ : store) (a b : loc) (oa ob : StatusOr) :
  a <> b ->
  σ !! a = Some oa -> consistent oa = true ->
  σ !! b = Some ob -> consistent ob = true ->
  (move_assign b a ;; move_assign a b) σ = Ret (tt, <[b := moved_from]> σ) /\
  (forall t, σ !! t = None ->
     (StatusOr_move t a ;; move_assign a b ;; move_assign b t ;;
      StatusOr_destroy t) σ
     = Ret (tt, <[a := ob]> (<[b := oa]> σ))).
Proof.
  intros Hne Ha Ca Hb Cb. split.
  - unfold bind.
    rewrite (move_assign_distinct σ b a oa ob (not_eq_sym Hne) Ha Ca Hb Cb).
    rewrite (move_assign_distinct _ a b oa moved_from Hne).
    + do 2 f_equal. store_eq.
    + rewrite lookup_insert_ne by done. apply lookup_insert_eq.
    + exact Ca.
    + apply lookup_insert_eq.
    + reflexivity.
  - intros t Ht.
    assert (t <> a) by congruence. assert (t <> b) by congruence.
    unfold bind.
    rewrite (StatusOr_move_fresh σ t a oa Ht Ha Ca).
    rewrite (move_assign_distinct _ a b ob moved_from Hne).
    2: { by rewrite !lookup_insert_ne. }
    2: { exact Cb. }
    2: { apply lookup_insert_eq. }
    2: { reflexivity. }
    rewrite (move_assign_distinct _ b t oa moved_from).
    2: { congruence. }
    2: { rewrite !lookup_insert_ne by congruence. apply lookup_insert_eq. }
    2: { exact Ca. }
    2: { apply lookup_insert_eq. }
    2: { reflexivity. }
    rewrite (StatusOr_destroy_at _ t moved_from).
    2: { apply lookup_insert_eq. }
    2: { reflexivity. }
    do 2 f_equal. store_eq.
Qed.

(** X7. For every object of a store reached from the empty one, ok() is
    true exactly when the status that status() returns is OK. *)
Theorem status_agrees_with_ok (cs : list op) (σ : store) (l : loc) (o : StatusOr) :
  GoogleError_UNKNOWN <> 0 -> StatusError_INVALID <> 0 ->
  run cs ∅ = Ret (tt, σ) -> σ !! l = Some o ->
  exists s, status l σ = Ret (s, σ) /\ ok l σ = Ret (Status_ok s, σ).
Proof.
  intros HU HI Hrun Hl.
  assert (Hvalid : valid o = true).
  { apply (run_valid cs ∅ σ HU HI) with (l := l); [| exact Hrun | exact Hl].
    intros k x Hk. rewrite lookup_empty in Hk. discriminate Hk. }
  destruct (has_value_ o) eqn:Hv.
  - exists OkStatus. split.
    + by apply (status_at_value σ l o).
    + rewrite (ok_at σ l o Hl), Hv. reflexivity.
  - destruct (valid_failure o Hvalid Hv) as (s & -> & Hs).
    exists s. split.
    + by apply status_at_failure.
    + rewrite (ok_at σ l _ Hl), Hs. reflexivity.
Qed.

(** X8. An assignment through the reference that ValueOrDie() & returns
    replaces the stored value and nothing else: the container stays ok, its
    status stays OK and the next ValueOrDie returns the new value.  On a
    container that is not ok the assignment is not reached. *)
Theorem write_through_reference (σ : store) (this : loc) (o : StatusOr) (w : T) :
  σ !! this = Some o -> consistent o = true ->
  (has_value_ o = true ->
   (ValueOrDie_store this w ;;
    x <- ValueOrDie_const this ;; b <- ok this ;; s <- status this ;;
    ret (x, b, s)) σ
   = Ret ((w, true, OkStatus), <[this := mkStatusOr (value_ w) true]> σ)) /\
  (has_value_ o = false -> ValueOrDie_store this w σ = Fatal no_usable_value).
Proof.
  intros Ho C.
  destruct (consistent_cases o C) as [[v ->]|[s ->]]; split; intros Hv;
    try discriminate Hv; call_solve.
Qed.

(** X9. AssignValue must not be handed a reference to the value of its own
    object: it runs the destructor of that value before it copies or moves
    from the reference.  This is the case the test [this == &other] of the
    assignment operators keeps away.  AssignStatus, which assigns to the
    live Status in place, is harmless on a const reference to its own
    Status. *)
Theorem assign_helpers_and_aliasing (σ : store) (this : loc) :
  (forall v, σ !! this = Some (mkStatusOr (value_ v) true) ->
     AssignValue this (const_ref this) σ = Undefined /\
     AssignValue this (rvalue_ref this) σ = Undefined) /\
  (forall s, σ !! this = Some (mkStatusOr (status_ s) false) ->
     AssignStatus this (const_ref this) σ = Ret (tt, σ)).
Proof.
  split.
  - intros v Hv. split; call_solve.
  - intros s Hs. call_run. do 2 f_equal. store_eq.
Qed.





Lemma keeps_objects_ret {A : Type} (a : A) : keeps_objects (ret a : call A).
Proof. intros σ x σ' H l. unfold ret in H. by simplify_eq. Qed.

Lemma keeps_objects_bind {A B : Type} (m : call A) (k : A -> call B) :
  keeps_objects m -> (forall a, keeps_objects (k a)) -> keeps_objects (bind m k).
Proof.
  intros Hm Hk σ b σ' H l. unfold bind in H.
  destruct (m σ) as [[a σ1]| |] eqn:E; try discriminate.
  rewrite (Hk a σ1 b σ' H l). exact (Hm σ a σ1 E l).
Qed.

Lemma keeps_objects_LOG_FATAL {A : Type} (msg : string) :
  keeps_objects (@LOG_FATAL store A msg).
Proof. intros σ x σ' H. discriminate. Qed.

Lemma keeps_objects_undefined {A : Type} : keeps_objects (@undefined store A).
Proof. intros σ x σ' H. discriminate. Qed.

Lemma keeps_objects_load (this : loc) : keeps_objects (load this).
Proof.
  intros σ x σ' H l. unfold load in H. destruct (σ !! this); by simplify_eq.
Qed.

Lemma keeps_objects_set_variant_ (this : loc) (u : variant) :
  keeps_objects (set_variant_ this u).
Proof.
  intros σ x σ' H l. unfold set_variant_, load, bind in H.
  destruct (σ !! this) as [o|] eqn:E; simplify_eq.
  rewrite lookup_insert. case_decide; [subst; by rewrite E | done].
Qed.

Lemma keeps_objects_set_has_value_ (this : loc) (b : bool) :
  keeps_objects (set_has_value_ this b).
Proof.
  intros σ x σ' H l. unfold set_has_value_, load, bind in H.
  destruct (σ !! this) as [o|] eqn:E; simplify_eq.
  rewrite lookup_insert. case_decide; [subst; by rewrite E | done].
Qed.

Ltac keeps_objects_step :=
  match goal with
  | |- keeps_objects (bind _ _) => apply keeps_objects_bind; [| intros ?]
  | |- keeps_objects (ret _) => apply keeps_objects_ret
  | |- keeps_objects (LOG_FATAL _) => apply keeps_objects_LOG_FATAL
  | |- keeps_objects undefined => apply keeps_objects_undefined
  | |- keeps_objects (load _) => apply keeps_objects_load
  | |- keeps_objects (set_variant_ _ _) => apply keeps_objects_set_variant_
  | |- keeps_objects (set_has_value_ _ _) => apply keeps_objects_set_has_value_
  | |- keeps_objects (if ?b then _ else _) => destruct b
  | |- keeps_objects (match ?u with no_member => _ | _ => _ end) => destruct u
  end.

Ltac keeps_objects_solve :=
  unfold move_assign, copy_assign, ValueOrDie_move, ValueOrDie_store,
    ValueOrDie_mut, ValueOrDie_const, Clear, AssignValue, AssignStatus,
    status, ok, forward_value, forward_status, assign_value_, assign_status_,
    placement_new, destroy_status_, destroy_value_, move_value_, move_status_,
    get_value_, get_status_, get_has_value_;
  repeat keeps_objects_step.

Lemma keeps_objects_AssignStatus (this : loc) (x : arg Status) :
  keeps_objects (AssignStatus this x).
Proof. destruct x; keeps_objects_solve. Qed.

Lemma keeps_objects_AssignValue (this : loc) (x : arg T) :
  keeps_objects (AssignValue this x).
Proof. destruct x; keeps_objects_solve. Qed.

Lemma construct_then (o : StatusOr) (m : call unit) (this : loc) (σ σ' : store) :
  keeps_objects m ->
  (construct this o ;; m) σ = Ret (tt, σ') ->
  forall l, is_Some (σ' !! l) <-> l = this \/ is_Some (σ !! l).
Proof.
  intros Hm H l. unfold bind, construct in H.
  destruct (σ !! this) eqn:E; [discriminate H|].
  rewrite (Hm _ _ _ H l), lookup_insert.
  case_decide; subst.
  - split; [by left | by eexists].
  - split; [by right | intros [->|Hl]; done].
Qed.

Lemma then_release {A : Type} (m : call A) (k : A -> call unit)
    (this : loc) (σ σ' : store) :
  keeps_objects m -> (forall a, keeps_objects (k a)) ->
  (a <- m ;; k a ;; release this) σ = Ret (tt, σ') ->
  forall l, is_Some (σ' !! l) <-> is_Some (σ !! l) /\ l <> this.
Proof.
  intros Hm Hk H l. unfold bind at 1 in H.
  destruct (m σ) as [[a σ1]| |] eqn:E1; try discriminate.
  unfold bind at 1 in H.
  destruct (k a σ1) as [[[] σ2]| |] eqn:E2; try discriminate.
  unfold release, load, bind in H.
  destruct (σ2 !! this) as [o|] eqn:E3; simplify_eq.
  rewrite <- (Hm σ a σ1 E1 l), <- (Hk a σ1 tt σ2 E2 l), lookup_delete.
  case_decide; subst.
  - split; [intros [? ?]; done | intros [_ ?]; done].
  - split; [done | by intros [? _]].
Qed.

(** X11. Only a constructor brings an object to life, at the address it is
    given, and only the destructor ends the life of one.  Assignments, moves,
    ok(), status() and ValueOrDie leave the same objects alive: a container
    that was moved from is still an object. *)
Theorem lifetimes (c : op) (σ σ' : store) (l : loc) :
  exec c σ = Ret (tt, σ') ->
  (is_Some (σ' !! l) <->
   creates c = Some l \/ (is_Some (σ !! l) /\ ends c <> Some l)).
Proof.
  intros Hexec.
  assert (Hkeep : forall m : call unit,
             keeps_objects m -> m σ = Ret (tt, σ') ->
             creates c = None -> ends c = None ->
             is_Some (σ' !! l) <->
             creates c = Some l \/ (is_Some (σ !! l) /\ ends c <> Some l)).
  { intros m Hm H -> ->. rewrite (Hm σ tt σ' H l).
    split; [intros ?; right; split; [done | discriminate] |].
    intros [?|[? _]]; [discriminate | done]. }
  assert (Hnew : forall (this : loc) (o : StatusOr) (m : call unit),
             keeps_objects m -> (construct this o ;; m) σ = Ret (tt, σ') ->
             creates c = Some this -> ends c = None ->
             is_Some (σ' !! l) <->
             creates c = Some l \/ (is_Some (σ !! l) /\ ends c <> Some l)).
  { intros this o m Hm H -> ->. rewrite (construct_then o m this σ σ' Hm H l).
    split.
    - intros [->|?]; [by left | right; split; [done | discriminate]].
    - intros [?|[? _]]; [left; congruence | by right]. }
  destruct c; cbn [exec] in Hexec.
  - apply (Hnew this (mkStatusOr (status_ unknown_status) false) (ret tt));
      [apply keeps_objects_ret | | done | done].
    unfold StatusOr_default, bind, ret in *.
    by destruct (construct this _ σ) as [[[] ?]| |].
  - apply (Hnew this (mkStatusOr (status_ s) false)
             (if Status_ok s
              then LOG_FATAL "Cannot instantiate StatusOr with Status::OkStatus()"
              else ret tt)); [keeps_objects_solve | exact Hexec | done | done].
  - apply (Hnew this (mkStatusOr (value_ v) true) (ret tt));
      [apply keeps_objects_ret | | done | done].
    unfold StatusOr_from_value, bind, ret in *.
    by destruct (construct this _ σ) as [[[] ?]| |].
  - apply (Hnew this (mkStatusOr (value_ v) true) (ret tt));
      [apply keeps_objects_ret | | done | done].
    unfold StatusOr_from_rvalue, bind, ret in *.
    by destruct (construct this _ σ) as [[[] ?]| |].
  - unfold StatusOr_copy in Hexec. unfold bind at 1 in Hexec.
    destruct (get_has_value_ other σ) as [[hv σ1]| |] eqn:E; try discriminate.
    assert (σ1 = σ) as ->.
    { unfold get_has_value_, load, bind, ret in E.
      destruct (σ !! other); by simplify_eq. }
    eapply Hnew; [| exact Hexec | done | done]. keeps_objects_solve.
  - unfold StatusOr_move in Hexec. unfold bind at 1 in Hexec.
    destruct (get_has_value_ other σ) as [[hv σ1]| |] eqn:E; try discriminate.
    assert (σ1 = σ) as ->.
    { unfold get_has_value_, load, bind, ret in E.
      destruct (σ !! other); by simplify_eq. }
    eapply Hnew; [| exact Hexec | done | done]. keeps_objects_solve.
  - apply (fun H => Hkeep _ H Hexec); [keeps_objects_solve | done | done].
  - apply (fun H => Hkeep _ H Hexec); [keeps_objects_solve | done | done].
  - cbn [creates ends].
    rewrite (then_release (get_has_value_ this)
               (fun b : bool =>
                  if b then destroy_value_ this else destroy_status_ this)
               this σ σ' ltac:(keeps_objects_solve)
               ltac:(intros []; keeps_objects_solve) Hexec l).
    split; [intros [? ?]; right; split; [done | congruence] |].
    intros [?|[? ?]]; [discriminate | split; [done | congruence]].
  - apply (fun H => Hkeep _ H Hexec); [keeps_objects_solve | done | done].
  - apply (fun H => Hkeep _ H Hexec); [keeps_objects_solve | done | done].
  - apply (fun H => Hkeep _ H Hexec); [keeps_objects_solve | done | done].
  - apply (fun H => Hkeep _ H Hexec); [keeps_objects_solve | done | done].
  - apply (fun H => Hkeep _ H Hexec); [keeps_objects_solve | done | done].
  - apply (fun H => Hkeep _ H Hexec); [keeps_objects_solve | done | done].
Qed.

End StatusOr.

(** ** The properties at StatusOr<int> *)

(** The instance used below: [T] is an integer type, whose moved-from state
    is the value itself; a moved-from Status keeps its code and loses its
    message; UNKNOWN is 2 and INVALID is 1. *)

Example scenario_value_42 :
  bind (StatusOr_from_value Z 1%nat 42) (fun _ =>
  bind (ok Z 1%nat) (fun b =>
  bind (ValueOrDie_move Z (fun v => v) (fun s => mkStatus (error_code_ s) "") 1 1%nat) (fun x =>
  bind (ok Z 1%nat) (fun b' =>
  bind (status Z 1%nat) (fun st => ret (b, x, b', st)))))) ∅
  = Ret ((true, 42, false, mkStatus 1 "The object was moved"),
         {[ 1%nat := moved_from Z 1 ]}).
Proof. vm_compute. reflexivity. Qed.

Example scenario_not_found :
  bind (StatusOr_from_status Z 1%nat (mkStatus 5 "not found")) (fun _ =>
  bind (ok Z 1%nat) (fun b =>
  bind (status Z 1%nat) (fun st => ret (b, st)))) ∅
  = Ret ((false, mkStatus 5 "not found"),
         {[ 1%nat := mkStatusOr Z (status_ Z (mkStatus 5 "not found")) false ]})
  /\ bind (StatusOr_from_status Z 1%nat (mkStatus 5 "not found")) (fun _ =>
       ValueOrDie_const Z 1%nat) ∅
     = Fatal "Object does not have a usable value".
Proof. split; vm_compute; reflexivity. Qed.

Lemma move_poisons_donor_witness :
  (1 <> 2)%nat /\
  ({[ 1%nat := mkStatusOr Z (value_ Z 42) true ]} : gmap loc (StatusOr Z)) !! 1%nat
  = Some (mkStatusOr Z (value_ Z 42) true) /\
  consistent Z (mkStatusOr Z (value_ Z 42) true) = true /\
  exists σ',
    StatusOr_move Z (fun v => v) (fun s => mkStatus (error_code_ s) "") 1
      2%nat 1%nat {[ 1%nat := mkStatusOr Z (value_ Z 42) true ]}
    = Ret (tt, σ') /\
    σ' !! 2%nat = Some (mkStatusOr Z (value_ Z 42) true) /\
    ok Z 1%nat σ' = Ret (false, σ') /\
    status Z 1%nat σ' = Ret (mkStatus 1 "The object was moved", σ').
Proof.
  assert (H1 : (1 <> 2)%nat) by lia.
  assert (H2 : ({[ 1%nat := mkStatusOr Z (value_ Z 42) true ]}
                : gmap loc (StatusOr Z)) !! 1%nat
               = Some (mkStatusOr Z (value_ Z 42) true)) by reflexivity.
  assert (H3 : consistent Z (mkStatusOr Z (value_ Z 42) true) = true)
    by reflexivity.
  split; [exact H1|]. split; [exact H2|]. split; [exact H3|].
  destruct (move_poisons_donor Z (fun v => v)
              (fun s => mkStatus (error_code_ s) "") 1 _ 1%nat 2%nat _
              H1 H2 H3) as (Hctor & _).
  apply Hctor. reflexivity.
Defined.

Lemma value_round_trip_witness :
  (∅ : gmap loc (StatusOr Z)) !! 1%nat = None /\
  StatusOr_from_value Z 1%nat 42 ∅
  = Ret (tt, <[1%nat := mkStatusOr Z (value_ Z 42) true]> ∅) /\
  ok Z 1%nat (<[1%nat := mkStatusOr Z (value_ Z 42) true]> ∅)
  = Ret (true, <[1%nat := mkStatusOr Z (value_ Z 42) true]> ∅) /\
  ValueOrDie_const Z 1%nat (<[1%nat := mkStatusOr Z (value_ Z 42) true]> ∅)
  = Ret (42, <[1%nat := mkStatusOr Z (value_ Z 42) true]> ∅).
Proof.
  assert (H1 : (∅ : gmap loc (StatusOr Z)) !! 1%nat = None) by reflexivity.
  split; [exact H1|].
  destruct (value_round_trip Z (fun v => v)
              (fun s => mkStatus (error_code_ s) "") 1 ∅ 1%nat 42 H1)
    as (Hc & _ & Hok & _ & _ & Hv & _).
  split; [exact Hc|]. split; [exact Hok | exact Hv].
Defined.

Lemma failure_round_trip_witness :
  (∅ : gmap loc (StatusOr Z)) !! 1%nat = None /\
  Status_ok (mkStatus 5 "not found") = false /\
  StatusOr_from_status Z 1%nat (mkStatus 5 "not found") ∅
  = Ret (tt, <[1%nat := mkStatusOr Z (status_ Z (mkStatus 5 "not found")) false]> ∅) /\
  ok Z 1%nat (<[1%nat := mkStatusOr Z (status_ Z (mkStatus 5 "not found")) false]> ∅)
  = Ret (false, <[1%nat := mkStatusOr Z (status_ Z (mkStatus 5 "not found")) false]> ∅).
Proof.
  assert (H1 : (∅ : gmap loc (StatusOr Z)) !! 1%nat = None) by reflexivity.
  assert (H2 : Status_ok (mkStatus 5 "not found") = false) by reflexivity.
  split; [exact H1|]. split; [exact H2|].
  destruct (failure_round_trip Z ∅ 1%nat (mkStatus 5 "not found") H1 H2)
    as (Hc & Hok & _).
  split; [exact Hc | exact Hok].
Defined.

Lemma value_access_contract_witness :
  ({[ 1%nat := mkStatusOr Z (status_ Z (mkStatus 5 "not found")) false ]}
   : gmap loc (StatusOr Z)) !! 1%nat
  = Some (mkStatusOr Z (status_ Z (mkStatus 5 "not found")) false) /\
  consistent Z (mkStatusOr Z (status_ Z (mkStatus 5 "not found")) false) = true /\
  ValueOrDie_const Z 1%nat
    {[ 1%nat := mkStatusOr Z (status_ Z (mkStatus 5 "not found")) false ]}
  = Fatal "Object does not have a usable value" /\
  ValueOrDie_mut Z 1%nat
    {[ 1%nat := mkStatusOr Z (status_ Z (mkStatus 5 "not found")) false ]}
  = Fatal "Object does not have a usable value" /\
  ValueOrDie_move Z (fun v => v) (fun s => mkStatus (error_code_ s) "") 1 1%nat
    {[ 1%nat := mkStatusOr Z (status_ Z (mkStatus 5 "not found")) false ]}
  = Fatal "Object does not have a usable value".
Proof.
  assert (H1 : ({[ 1%nat := mkStatusOr Z (status_ Z (mkStatus 5 "not found")) false ]}
                : gmap loc (StatusOr Z)) !! 1%nat
               = Some (mkStatusOr Z (status_ Z (mkStatus 5 "not found")) false))
    by reflexivity.
  assert (H2 : consistent Z
                 (mkStatusOr Z (status_ Z (mkStatus 5 "not found")) false) = true)
    by reflexivity.
  split; [exact H1|]. split; [exact H2|].
  destruct (value_access_contract Z (fun v => v)
              (fun s => mkStatus (error_code_ s) "") 1 _ 1%nat _ H1 H2)
    as (_ & Hfatal & _).
  apply Hfatal. reflexivity.
Defined.

Lemma success_status_rejected_witness :
  (∅ : gmap loc (StatusOr Z)) !! 1%nat = None /\
  Status_ok OkStatus = true /\
  StatusOr_from_status Z 1%nat OkStatus ∅
  = Fatal "Cannot instantiate StatusOr with Status::OkStatus()".
Proof.
  assert (H1 : (∅ : gmap loc (StatusOr Z)) !! 1%nat = None) by reflexivity.
  split; [exact H1|]. split; [reflexivity|].
  destruct (success_status_rejected Z ∅ 1%nat OkStatus H1) as (Hfatal & _).
  apply Hfatal. reflexivity.
Defined.

Lemma failure_status_never_ok_witness :
  (2 <> 0) /\ (1 <> 0) /\
  run Z (fun v => v) (fun s => mkStatus (error_code_ s) "") 2 1
    [op_from_value Z 1%nat 42; op_move Z 2%nat 1%nat] ∅
  = Ret (tt, {[ 1%nat := moved_from Z 1;
                2%nat := mkStatusOr Z (value_ Z 42) true ]}) /\
  ({[ 1%nat := moved_from Z 1; 2%nat := mkStatusOr Z (value_ Z 42) true ]}
   : gmap loc (StatusOr Z)) !! 1%nat = Some (moved_from Z 1) /\
  has_value_ Z (moved_from Z 1) = false /\
  exists s, variant_ Z (moved_from Z 1) = status_ Z s /\ Status_ok s = false.
Proof.
  assert (H1 : 2 <> 0) by lia.
  assert (H2 : 1 <> 0) by lia.
  assert (H3 : run Z (fun v => v) (fun s => mkStatus (error_code_ s) "") 2 1
                 [op_from_value Z 1%nat 42; op_move Z 2%nat 1%nat] ∅
               = Ret (tt, {[ 1%nat := moved_from Z 1;
                             2%nat := mkStatusOr Z (value_ Z 42) true ]}))
    by (vm_compute; reflexivity).
  assert (H4 : ({[ 1%nat := moved_from Z 1;
                   2%nat := mkStatusOr Z (value_ Z 42) true ]}
                : gmap loc (StatusOr Z)) !! 1%nat = Some (moved_from Z 1))
    by reflexivity.
  assert (H5 : has_value_ Z (moved_from Z 1) = false) by reflexivity.
  split; [exact H1|]. split; [exact H2|]. split; [exact H3|].
  split; [exact H4|]. split; [exact H5|].
  destruct (failure_status_never_ok Z _ _ 2 1 _ _ 1%nat _ H1 H2 H3 H4 H5)
    as (s & Hs & Hok & _).
  exists s. split; [exact Hs | exact Hok].
Defined.

Lemma copy_independent_witness :
  (1 <> 2)%nat /\
  ({[ 1%nat := mkStatusOr Z (value_ Z 42) true ]} : gmap loc (StatusOr Z)) !! 1%nat
  = Some (mkStatusOr Z (value_ Z 42) true) /\
  consistent Z (mkStatusOr Z (value_ Z 42) true) = true /\
  StatusOr_copy Z 2%nat 1%nat {[ 1%nat := mkStatusOr Z (value_ Z 42) true ]}
  = Ret (tt, <[2%nat := mkStatusOr Z (value_ Z 42) true]>
               {[ 1%nat := mkStatusOr Z (value_ Z 42) true ]}) /\
  exists σ2,
    run Z (fun v => v) (fun s => mkStatus (error_code_ s) "") 2 1
      [op_ValueOrDie_store Z 2%nat 7; op_ValueOrDie_move Z 2%nat]
      (<[2%nat := mkStatusOr Z (value_ Z 42) true]>
         {[ 1%nat := mkStatusOr Z (value_ Z 42) true ]})
    = Ret (tt, σ2) /\
    σ2 !! 2%nat = Some (moved_from Z 1) /\
    σ2 !! 1%nat = Some (mkStatusOr Z (value_ Z 42) true).
Proof.
  assert (H1 : (1 <> 2)%nat) by lia.
  assert (H2 : ({[ 1%nat := mkStatusOr Z (value_ Z 42) true ]}
                : gmap loc (StatusOr Z)) !! 1%nat
               = Some (mkStatusOr Z (value_ Z 42) true)) by reflexivity.
  assert (H3 : consistent Z (mkStatusOr Z (value_ Z 42) true) = true)
    by reflexivity.
  split; [exact H1|]. split; [exact H2|]. split; [exact H3|].
  destruct (copy_independent Z (fun v => v)
              (fun s => mkStatus (error_code_ s) "") 2 1 _ 1%nat 2%nat _
              H1 H2 H3) as (Hctor & _ & _ & _ & _ & _ & Hmut).
  split; [apply Hctor; reflexivity|].
  exact (Hmut 42 7 eq_refl).
Defined.

Lemma default_is_unknown_failure_witness :
  2 <> 0 /\
  (∅ : gmap loc (StatusOr Z)) !! 1%nat = None /\
  StatusOr_default Z 2 1%nat ∅
  = Ret (tt, <[1%nat := mkStatusOr Z (status_ Z (mkStatus 2 "Unknown error")) false]> ∅) /\
  Status_ok (mkStatus 2 "Unknown error") = false.
Proof.
  assert (H1 : 2 <> 0) by lia.
  assert (H2 : (∅ : gmap loc (StatusOr Z)) !! 1%nat = None) by reflexivity.
  split; [exact H1|]. split; [exact H2|].
  destruct (default_is_unknown_failure Z 2 ∅ 1%nat H1 H2)
    as (Hc & _ & _ & Hnot & _).
  split; [exact Hc | exact Hnot].
Defined.

Lemma move_from_failure_poisons_witness :
  (1 <> 2)%nat /\
  ({[ 1%nat := mkStatusOr Z (status_ Z (mkStatus 5 "not found")) false ]}
   : gmap loc (StatusOr Z)) !! 1%nat
  = Some (mkStatusOr Z (status_ Z (mkStatus 5 "not found")) false) /\
  StatusOr_move Z (fun v => v) (fun s => mkStatus (error_code_ s) "") 1
    2%nat 1%nat
    {[ 1%nat := mkStatusOr Z (status_ Z (mkStatus 5 "not found")) false ]}
  = Ret (tt, <[1%nat := moved_from Z 1]>
               (<[2%nat := mkStatusOr Z (status_ Z (mkStatus 5 "not found")) false]>
                  {[ 1%nat := mkStatusOr Z (status_ Z (mkStatus 5 "not found")) false ]})).
Proof.
  assert (H1 : (1 <> 2)%nat) by lia.
  assert (H2 : ({[ 1%nat := mkStatusOr Z (status_ Z (mkStatus 5 "not found")) false ]}
                : gmap loc (StatusOr Z)) !! 1%nat
               = Some (mkStatusOr Z (status_ Z (mkStatus 5 "not found")) false))
    by reflexivity.
  split; [exact H1|]. split; [exact H2|].
  destruct (move_from_failure_poisons Z (fun v => v)
              (fun s => mkStatus (error_code_ s) "") 2 1 _ 1%nat 2%nat _
              H1 H2) as (Hctor & _).
  apply Hctor. reflexivity.
Defined.

(** ** The further properties at StatusOr<int> *)

Local Abbreviation run_int :=
  (run Z (fun v => v) (fun s => mkStatus (error_code_ s) "") 2 1).
Local Abbreviation exec_int :=
  (exec Z (fun v => v) (fun s => mkStatus (error_code_ s) "") 2 1).
Local Abbreviation holds_42 := (mkStatusOr Z (value_ Z 42) true).
Local Abbreviation holds_not_found :=
  (mkStatusOr Z (status_ Z (mkStatus 5 "not found")) false).

Lemma union_discipline_witness :
  run_int [op_from_value Z 1%nat 42; op_move Z 2%nat 1%nat] ∅
  = Ret (tt, {[ 1%nat := moved_from Z 1; 2%nat := holds_42 ]}) /\
  ({[ 1%nat := moved_from Z 1; 2%nat := holds_42 ]}
   : gmap loc (StatusOr Z)) !! 2%nat = Some holds_42 /\
  ((exists v, holds_42 = mkStatusOr Z (value_ Z v) true) \/
   (exists s, holds_42 = mkStatusOr Z (status_ Z s) false)).
Proof.
  assert (H1 : run_int [op_from_value Z 1%nat 42; op_move Z 2%nat 1%nat] ∅
               = Ret (tt, {[ 1%nat := moved_from Z 1; 2%nat := holds_42 ]}))
    by (vm_compute; reflexivity).
  assert (H2 : ({[ 1%nat := moved_from Z 1; 2%nat := holds_42 ]}
                : gmap loc (StatusOr Z)) !! 2%nat = Some holds_42)
    by reflexivity.
  split; [exact H1|]. split; [exact H2|].
  exact (union_discipline Z _ _ 2 1 _ _ 2%nat _ H1 H2).
Defined.

Lemma reachable_call_defined_witness :
  run_int [op_from_value Z 1%nat 42; op_move Z 2%nat 1%nat] ∅
  = Ret (tt, {[ 1%nat := moved_from Z 1; 2%nat := holds_42 ]}) /\
  well_addressed Z (op_move_assign Z 1%nat 2%nat)
    {[ 1%nat := moved_from Z 1; 2%nat := holds_42 ]} /\
  exec_int (op_move_assign Z 1%nat 2%nat)
    {[ 1%nat := moved_from Z 1; 2%nat := holds_42 ]} <> Undefined.
Proof.
  assert (H1 : run_int [op_from_value Z 1%nat 42; op_move Z 2%nat 1%nat] ∅
               = Ret (tt, {[ 1%nat := moved_from Z 1; 2%nat := holds_42 ]}))
    by (vm_compute; reflexivity).
  assert (H2 : well_addressed Z (op_move_assign Z 1%nat 2%nat)
                 {[ 1%nat := moved_from Z 1; 2%nat := holds_42 ]}).
  { split; eexists; reflexivity. }
  split; [exact H1|]. split; [exact H2|].
  exact (reachable_call_defined Z _ _ 2 1 _ _ _ H1 H2).
Defined.

Lemma fatal_only_at_contract_violations_witness :
  exec_int (op_ValueOrDie_move Z 1%nat) {[ 1%nat := holds_not_found ]}
  = Fatal "Object does not have a usable value" /\
  fatal_site Z (op_ValueOrDie_move Z 1%nat) {[ 1%nat := holds_not_found ]}
    "Object does not have a usable value".
Proof.
  assert (H1 : exec_int (op_ValueOrDie_move Z 1%nat)
                 {[ 1%nat := holds_not_found ]}
               = Fatal "Object does not have a usable value")
    by (vm_compute; reflexivity).
  split; [exact H1|].
  exact (proj1 (fatal_only_at_contract_violations Z _ _ 2 1 _ _ _) H1).
Defined.



Lemma moves_compose_witness :
  (1 <> 2)%nat /\
  ({[ 1%nat := holds_42; 2%nat := holds_not_found ]}
   : gmap loc (StatusOr Z)) !! 1%nat = Some holds_42 /\
  consistent Z holds_42 = true /\
  ({[ 1%nat := holds_42; 2%nat := holds_not_found ]}
   : gmap loc (StatusOr Z)) !! 2%nat = Some holds_not_found /\
  consistent Z holds_not_found = true /\
  ({[ 1%nat := holds_42; 2%nat := holds_not_found ]}
   : gmap loc (StatusOr Z)) !! 3%nat = None /\
  bind (StatusOr_move Z (fun v => v) (fun s => mkStatus (error_code_ s) "") 1
          3%nat 1%nat)
    (fun _ =>
       bind (move_assign Z (fun v => v) (fun s => mkStatus (error_code_ s) "") 1
               1%nat 2%nat)
         (fun _ =>
            bind (move_assign Z (fun v => v)
                    (fun s => mkStatus (error_code_ s) "") 1 2%nat 3%nat)
              (fun _ => StatusOr_destroy Z 3%nat)))
    {[ 1%nat := holds_42; 2%nat := holds_not_found ]}
  = Ret (tt, <[1%nat := holds_not_found]>
               (<[2%nat := holds_42]>
                  {[ 1%nat := holds_42; 2%nat := holds_not_found ]})).
Proof.
  assert (H1 : (1 <> 2)%nat) by lia.
  assert (H2 : ({[ 1%nat := holds_42; 2%nat := holds_not_found ]}
                : gmap loc (StatusOr Z)) !! 1%nat = Some holds_42)
    by reflexivity.
  assert (H3 : consistent Z holds_42 = true) by reflexivity.
  assert (H4 : ({[ 1%nat := holds_42; 2%nat := holds_not_found ]}
                : gmap loc (StatusOr Z)) !! 2%nat = Some holds_not_found)
    by reflexivity.
  assert (H5 : consistent Z holds_not_found = true) by reflexivity.
  assert (H6 : ({[ 1%nat := holds_42; 2%nat := holds_not_found ]}
                : gmap loc (StatusOr Z)) !! 3%nat = None) by reflexivity.
  split; [exact H1|]. split; [exact H2|]. split; [exact H3|].
  split; [exact H4|]. split; [exact H5|]. split; [exact H6|].
  exact (proj2 (moves_compose Z (fun v => v)
                  (fun s => mkStatus (error_code_ s) "") 1 _ 1%nat 2%nat _ _
                  H1 H2 H3 H4 H5) 3%nat H6).
Defined.

Lemma status_agrees_with_ok_witness :
  2 <> 0 /\ 1 <> 0 /\
  run_int [op_from_value Z 1%nat 42; op_move Z 2%nat 1%nat] ∅
  = Ret (tt, {[ 1%nat := moved_from Z 1; 2%nat := holds_42 ]}) /\
  ({[ 1%nat := moved_from Z 1; 2%nat := holds_42 ]}
   : gmap loc (StatusOr Z)) !! 1%nat = Some (moved_from Z 1) /\
  exists s,
    status Z 1%nat {[ 1%nat := moved_from Z 1; 2%nat := holds_42 ]}
    = Ret (s, {[ 1%nat := moved_from Z 1; 2%nat := holds_42 ]}) /\
    ok Z 1%nat {[ 1%nat := moved_from Z 1; 2%nat := holds_42 ]}
    = Ret (Status_ok s, {[ 1%nat := moved_from Z 1; 2%nat := holds_42 ]}).
Proof.
  assert (H1 : 2 <> 0) by lia.
  assert (H2 : 1 <> 0) by lia.
  assert (H3 : run_int [op_from_value Z 1%nat 42; op_move Z 2%nat 1%nat] ∅
               = Ret (tt, {[ 1%nat := moved_from Z 1; 2%nat := holds_42 ]}))
    by (vm_compute; reflexivity).
  assert (H4 : ({[ 1%nat := moved_from Z 1; 2%nat := holds_42 ]}
                : gmap loc (StatusOr Z)) !! 1%nat = Some (moved_from Z 1))
    by reflexivity.
  split; [exact H1|]. split; [exact H2|]. split; [exact H3|].
  split; [exact H4|].
  exact (status_agrees_with_ok Z _ _ 2 1 _ _ 1%nat _ H1 H2 H3 H4).
Defined.

Lemma write_through_reference_witness :
  ({[ 1%nat := holds_42 ]} : gmap loc (StatusOr Z)) !! 1%nat = Some holds_42 /\
  consistent Z holds_42 = true /\
  has_value_ Z holds_42 = true /\
  bind (ValueOrDie_store Z 1%nat 7)
    (fun _ => bind (ValueOrDie_const Z 1%nat)
    (fun x => bind (ok Z 1%nat)
    (fun b => bind (status Z 1%nat)
    (fun s => ret (x, b, s))))) {[ 1%nat := holds_42 ]}
  = Ret ((7, true, OkStatus),
         <[1%nat := mkStatusOr Z (value_ Z 7) true]> {[ 1%nat := holds_42 ]}).
Proof.
  assert (H1 : ({[ 1%nat := holds_42 ]} : gmap loc (StatusOr Z)) !! 1%nat
               = Some holds_42) by reflexivity.
  assert (H2 : consistent Z holds_42 = true) by reflexivity.
  assert (H3 : has_value_ Z holds_42 = true) by reflexivity.
  split; [exact H1|]. split; [exact H2|]. split; [exact H3|].
  exact (proj1 (write_through_reference Z _ 1%nat _ 7 H1 H2) H3).
Defined.

Lemma assign_helpers_and_aliasing_witness :
  ({[ 1%nat := holds_42 ]} : gmap loc (StatusOr Z)) !! 1%nat = Some holds_42 /\
  AssignValue Z (fun v => v) 1%nat (const_ref 1%nat) {[ 1%nat := holds_42 ]}
  = Undefined /\
  AssignValue Z (fun v => v) 1%nat (rvalue_ref 1%nat) {[ 1%nat := holds_42 ]}
  = Undefined.
Proof.
  assert (H1 : ({[ 1%nat := holds_42 ]} : gmap loc (StatusOr Z)) !! 1%nat
               = Some holds_42) by reflexivity.
  split; [exact H1|].
  exact (proj1 (assign_helpers_and_aliasing Z (fun v => v)
                  (fun s => mkStatus (error_code_ s) "") _ 1%nat) 42 H1).
Defined.


Lemma lifetimes_witness :
  exec_int (op_move Z 2%nat 1%nat) {[ 1%nat := holds_42 ]}
  = Ret (tt, {[ 1%nat := moved_from Z 1; 2%nat := holds_42 ]}) /\
  (is_Some (({[ 1%nat := moved_from Z 1; 2%nat := holds_42 ]}
             : gmap loc (StatusOr Z)) !! 1%nat) <->
   creates Z (op_move Z 2%nat 1%nat) = Some 1%nat \/
   (is_Some (({[ 1%nat := holds_42 ]} : gmap loc (StatusOr Z)) !! 1%nat) /\
    ends Z (op_move Z 2%nat 1%nat) <> Some 1%nat)).
Proof.
  assert (H1 : exec_int (op_move Z 2%nat 1%nat) {[ 1%nat := holds_42 ]}
               = Ret (tt, {[ 1%nat := moved_from Z 1; 2%nat := holds_42 ]}))
    by (vm_compute; reflexivity).
  split; [exact H1|].
  exact (lifetimes Z _ _ 2 1 _ _ _ 1%nat H1).
Defined.
